(** * vscreen/updater: a self-updating binary

    Shallow embedding of [updater.go] and [info.go].  The Go code talks to
    the operating system (files, processes), to the network and to two
    library decoders (archive/zip, encoding/json).  The embedding threads an
    explicit [World] through every call: the filesystem as a finite map from
    paths to contents, the table of open handles, the processes started, and
    a log of the calls made.  What the environment decides (does a call
    fail, what does the server answer) is an explicit [Oracle]; what the
    two decoders compute is a [Platform] the development is parametric in. *)

From stdpp Require Import base strings gmap list.
From Stdlib Require Import Strings.Byte.

Open Scope string_scope.
Open Scope list_scope.

Abbreviation bytes := (list Byte.byte).

(** ** info.go *)

(** [type Info struct { Name, Version, Description string }] *)
Record Info := mkInfo {
  Name : string;
  Version : string;
  Description : string
}.

(** The zero value [Info{}] of Go. *)
Definition Info_zero : Info := mkInfo "" "" "".

(** ** Errors

    A Go [error] is either the one value the repository builds itself with
    [errors.New], or whatever a library call returned; the latter keeps the
    call it came from. *)

Inductive Op :=
| OpHttpGet | OpTempFile | OpCopy | OpOpenReader | OpEntryOpen | OpDecode
| OpCreate | OpRemove | OpRename | OpStartProcess | OpFindProcess | OpKill
| OpExecutable.

Inductive error :=
| errors_New (msg : string)
| LibError (origin : Op) (detail : string).

#[global] Instance Op_eq_dec : EqDecision Op.
Proof. solve_decision. Defined.

#[global] Instance error_eq_dec : EqDecision error.
Proof. solve_decision. Defined.

(** ** The world *)

(** What an open handle refers to. *)
Inductive Resource :=
| ZipReader (path : string)       (* *zip.ReadCloser *)
| ZipEntry (name : string)        (* the io.ReadCloser of File.Open *)
| OsFile (path : string)          (* *os.File *)
| HttpBody.                       (* resp.Body *)

(** [os.ProcAttr] and a started process. *)
Inductive Stream := Stdin | Stdout | Stderr.

Record ProcAttr := mkProcAttr {
  Dir : string;
  Env : list string;
  Files : list Stream
}.

Record Process := mkProcess {
  proc_name : string;
  proc_argv : list string;
  proc_attr : ProcAttr
}.

(** One entry of the call log. *)
Record Event := Call { ev_op : Op; ev_arg : string }.

Record World := mkWorld {
  files : gmap string bytes;      (* the filesystem *)
  handles : gmap nat Resource;    (* open handles, by descriptor *)
  next_fd : nat;                  (* next free descriptor *)
  procs : list Process;           (* processes started by this one *)
  alive : bool;                   (* is the current process still running *)
  os_Args : list string;          (* os.Args *)
  os_Environ : list string;       (* os.Environ() *)
  log : list Event                (* calls made so far, oldest first *)
}.

Definition set_files (f : gmap string bytes → gmap string bytes) (w : World) : World :=
  mkWorld (f (files w)) (handles w) (next_fd w) (procs w) (alive w)
          (os_Args w) (os_Environ w) (log w).

Definition set_handles (f : gmap nat Resource → gmap nat Resource) (w : World) : World :=
  mkWorld (files w) (f (handles w)) (next_fd w) (procs w) (alive w)
          (os_Args w) (os_Environ w) (log w).

Definition set_next_fd (n : nat) (w : World) : World :=
  mkWorld (files w) (handles w) n (procs w) (alive w)
          (os_Args w) (os_Environ w) (log w).

Definition set_procs (f : list Process → list Process) (w : World) : World :=
  mkWorld (files w) (handles w) (next_fd w) (f (procs w)) (alive w)
          (os_Args w) (os_Environ w) (log w).

Definition set_alive (b : bool) (w : World) : World :=
  mkWorld (files w) (handles w) (next_fd w) (procs w) b
          (os_Args w) (os_Environ w) (log w).

Definition set_log (f : list Event → list Event) (w : World) : World :=
  mkWorld (files w) (handles w) (next_fd w) (procs w) (alive w)
          (os_Args w) (os_Environ w) (f (log w)).

(** ** A state monad over the world *)

Definition st (A : Type) : Type := World → A * World.

#[global] Instance st_ret : MRet st := λ A a w, (a, w).
#[global] Instance st_bind : MBind st :=
  λ A B f m w, let '(a, w') := m w in f a w'.

Definition modify (f : World → World) : st unit := λ w, (tt, f w).
Definition gets {A} (f : World → A) : st A := λ w, (f w, w).

Definition record (op : Op) (arg : string) : st unit :=
  modify (set_log (λ l, l ++ [Call op arg])).

(** Go's [defer]: the cleanup runs when the rest of the function has
    produced its result, whatever that result is.  Nested uses run in
    last-in first-out order, as in Go. *)
Definition defer {A} (cleanup : st unit) (rest : st A) : st A :=
  a ← rest; cleanup;; mret a.

(** Opening a handle takes the next free descriptor. *)
Definition open_handle (r : Resource) : st nat :=
  fd ← gets next_fd;
  modify (set_handles (insert fd r));;
  modify (set_next_fd (S fd));;
  mret fd.

Definition Close (fd : nat) : st unit :=
  modify (set_handles (delete fd)).

(** ** What lies outside the repository *)

(** [zip.File]: one entry of an archive, with its name, its (decompressed)
    content and whether [File.Open] fails on it. *)
Record ZipFile := mkZipFile {
  zf_Name : string;
  zf_Data : bytes;
  zf_OpenFault : option string
}.

(** The two decoders and the path function the code calls.  They are pure
    functions of their input; the development does not look inside them. *)
Class Platform := {
  (* archive/zip: the entries of the archive with these bytes, or why the
     bytes are not an archive *)
  zip_parse : bytes → string + list ZipFile;
  (* encoding/json: [json.NewDecoder(r).Decode(&info)] on a zero [info]:
     the value left in [info], and the error if there is one *)
  json_Decode : bytes → Info * option string;
  (* path/filepath: [filepath.Dir] *)
  filepath_Dir : string → string
}.

(** What the environment decides during one call of the API. *)
Record Oracle := mkOracle {
  (* http.Get: a transport error, or the body of the response *)
  http_Get_result : string + bytes;
  (* ioutil.TempFile: an error, or the name of the file it creates *)
  TempFile_result : string + string;
  (* io.Copy in fetch: complete, or failing after so many bytes *)
  fetch_Copy_fault : option (nat * string);
  (* os.Create *)
  Create_fault : option string;
  (* io.Copy in unpack *)
  unpack_Copy_fault : option (nat * string);
  (* os.Rename, os.StartProcess, os.FindProcess, Process.Kill *)
  Rename_fault : option string;
  StartProcess_fault : option string;
  FindProcess_fault : option string;
  Kill_fault : option string;
}.

(** No call fails for a reason of the environment's. *)
Definition calm (get : string + bytes) (tmp : string) : Oracle :=
  mkOracle get (inr tmp) None None None None None None None.

(** A reader handed out by a library: its descriptor and what it yields. *)
Record ReadCloser := mkReadCloser {
  rc_fd : nat;
  rc_data : bytes
}.

Section Primitives.
Context `{Platform}.

(** [zip.OpenReader(path)] *)
Definition zip_OpenReader (path : string) : st (error + (nat * list ZipFile)) :=
  record OpOpenReader path;;
  fs ← gets files;
  match fs !! path with
  | None => mret (inl (LibError OpOpenReader "no such file or directory"))
  | Some b =>
      match zip_parse b with
      | inl detail => mret (inl (LibError OpOpenReader detail))
      | inr entries =>
          fd ← open_handle (ZipReader path);
          mret (inr (fd, entries))
      end
  end.

(** [f.Open()] *)
Definition zip_File_Open (f : ZipFile) : st (error + ReadCloser) :=
  record OpEntryOpen (zf_Name f);;
  match zf_OpenFault f with
  | Some detail => mret (inl (LibError OpEntryOpen detail))
  | None =>
      fd ← open_handle (ZipEntry (zf_Name f));
      mret (inr (mkReadCloser fd (zf_Data f)))
  end.

(** [json.NewDecoder(r).Decode(&info)] *)
Definition json_NewDecoder_Decode (r : ReadCloser) : st (Info * option error) :=
  record OpDecode "";;
  let '(info, e) := json_Decode (rc_data r) in
  mret (info, LibError OpDecode <$> e).

(** [os.Create(name)]: the file exists and is empty afterwards. *)
Definition os_Create (name : string) (fault : option string) : st (error + nat) :=
  record OpCreate name;;
  match fault with
  | Some detail => mret (inl (LibError OpCreate detail))
  | None =>
      modify (set_files (insert name []));;
      fd ← open_handle (OsFile name);
      mret (inr fd)
  end.

(** [io.Copy(dst, src)] into the file at [name]: all of [data] is appended,
    or only its first [n] bytes when the copy fails. *)
Definition io_Copy (name : string) (data : bytes) (fault : option (nat * string))
  : st (option error) :=
  record OpCopy name;;
  let written := match fault with None => data | Some (n, _) => take n data end in
  modify (set_files (λ fs, <[name := default [] (fs !! name) ++ written]> fs));;
  mret (match fault with
        | None => None
        | Some (_, detail) => Some (LibError OpCopy detail)
        end).

(** [os.Remove(name)]; its error is never looked at. *)
Definition os_Remove (name : string) : st unit :=
  record OpRemove name;;
  modify (set_files (delete name)).

(** [http.Get(url)] *)
Definition http_Get (url : string) (result : string + bytes) : st (error + ReadCloser) :=
  record OpHttpGet url;;
  match result with
  | inl detail => mret (inl (LibError OpHttpGet detail))
  | inr body =>
      fd ← open_handle HttpBody;
      mret (inr (mkReadCloser fd body))
  end.

(** [ioutil.TempFile("", "")]: a new, empty file. *)
Definition ioutil_TempFile (result : string + string) : st (error + (nat * string)) :=
  record OpTempFile "";;
  match result with
  | inl detail => mret (inl (LibError OpTempFile detail))
  | inr name =>
      modify (set_files (insert name []));;
      fd ← open_handle (OsFile name);
      mret (inr (fd, name))
  end.

(** [os.Rename(oldpath, newpath)]: fails when there is nothing at
    [oldpath], or when the environment says so; a failed rename changes
    nothing. *)
Definition os_Rename (oldpath newpath : string) (fault : option string)
  : st (option error) :=
  record OpRename oldpath;;
  fs ← gets files;
  match fs !! oldpath, fault with
  | None, _ => mret (Some (LibError OpRename "no such file or directory"))
  | Some _, Some detail => mret (Some (LibError OpRename detail))
  | Some b, None =>
      modify (set_files (λ fs, <[newpath := b]> (delete oldpath fs)));;
      mret None
  end.

(** [os.StartProcess(name, argv, attr)]: a new process executes the program
    the file at [name] holds.  With no file at [name] there is nothing to
    execute and the call fails, as the exec system call does. *)
Definition os_StartProcess (name : string) (argv : list string) (attr : ProcAttr)
    (fault : option string) : st (option error) :=
  record OpStartProcess name;;
  fs ← gets files;
  match fs !! name, fault with
  | None, _ => mret (Some (LibError OpStartProcess "no such file or directory"))
  | Some _, Some detail => mret (Some (LibError OpStartProcess detail))
  | Some _, None =>
      modify (set_procs (λ ps, ps ++ [mkProcess name argv attr]));;
      mret None
  end.

(** [os.FindProcess(os.Getpid())] *)
Definition os_FindProcess_self (fault : option string) : st (option error) :=
  record OpFindProcess "";;
  mret (LibError OpFindProcess <$> fault).

(** [old.Kill()] on the current process. *)
Definition Process_Kill_self (fault : option string) : st (option error) :=
  record OpKill "";;
  match fault with
  | Some detail => mret (Some (LibError OpKill detail))
  | None => modify (set_alive false);; mret None
  end.

End Primitives.

(** ** updater.go *)

(** [type Updater struct { upstream string; interval time.Duration; execPath string }] *)
Record Updater := mkUpdater {
  upstream : string;
  interval : nat;
  execPath : string
}.

(** The error [unpack] builds itself. *)
Definition missing_entry : error :=
  errors_New "info.json or binary file doesn't exist in archive".

Section Updater.
Context `{Platform}.


(** [RestartAndUpdate] *)
Definition RestartAndUpdate (u : Updater) (o : Oracle) : st (option error) :=
  err ← os_Rename (execPath u) (execPath u +:+ ".old") (Rename_fault o);
  match err with
  | Some e => mret (Some e)
  | None =>
      args ← gets os_Args;
      env ← gets os_Environ;
      err ← os_StartProcess (execPath u) args
              (mkProcAttr (filepath_Dir (execPath u)) env [Stdin; Stdout; Stderr])
              (StartProcess_fault o);
      match err with
      | Some e => mret (Some e)
      | None =>
          err ← os_FindProcess_self (FindProcess_fault o);
          match err with
          | Some e => mret (Some e)
          | None => Process_Kill_self (Kill_fault o)
          end
      end
  end.

(** [fetch] *)
Definition fetch (u : Updater) (o : Oracle) : st (string * option error) :=
  resp ← http_Get (upstream u) (http_Get_result o);
  match resp with
  | inl e => mret ("", Some e)
  | inr body =>
      defer (Close (rc_fd body)) (
        tmp ← ioutil_TempFile (TempFile_result o);
        match tmp with
        | inl e => mret ("", Some e)
        | inr (tmp_fd, tmp_Name) =>
            defer (Close tmp_fd) (
              err ← io_Copy tmp_Name (rc_data body) (fetch_Copy_fault o);
              mret (tmp_Name, err))
        end)
  end.

(** The [for _, f := range r.File] loop of [unpack]: every entry is opened;
    the reader of an entry named "info.json" becomes [infoFile], that of an
    entry named [execPath] becomes [binaryFile], a later one replacing an
    earlier one.  The loop is left at the first entry that does not open. *)
Fixpoint unpack_range (execPath : string) (fs : list ZipFile)
    (infoFile binaryFile : option ReadCloser)
  : st (error + (option ReadCloser * option ReadCloser)) :=
  match fs with
  | [] => mret (inr (infoFile, binaryFile))
  | f :: fs =>
      rc ← zip_File_Open f;
      match rc with
      | inl e => mret (inl e)
      | inr rc =>
          if decide (zf_Name f = "info.json") then
            unpack_range execPath fs (Some rc) binaryFile
          else if decide (zf_Name f = execPath) then
            unpack_range execPath fs infoFile (Some rc)
          else
            unpack_range execPath fs infoFile binaryFile
      end
  end.

(** [unpack] *)
Definition unpack (u : Updater) (path : string) (o : Oracle) : st (Info * option error) :=
  let info := Info_zero in
  r ← zip_OpenReader path;
  match r with
  | inl e => mret (info, Some e)
  | inr (r_fd, r_File) =>
      defer (Close r_fd) (
        found ← unpack_range (execPath u) r_File None None;
        match found with
        | inl e => mret (info, Some e)
        | inr (Some infoFile, Some binaryFile) =>
            defer (Close (rc_fd infoFile)) (
            defer (Close (rc_fd binaryFile)) (
              d ← json_NewDecoder_Decode infoFile;
              match d with
              | (info, Some e) => mret (info, Some e)
              | (info, None) =>
                  newFile ← os_Create (execPath u +:+ ".new") (Create_fault o);
                  match newFile with
                  | inl e => mret (info, Some e)
                  | inr newFile =>
                      defer (Close newFile) (
                        err ← io_Copy (execPath u +:+ ".new") (rc_data binaryFile)
                                (unpack_Copy_fault o);
                        mret (info, err))
                  end
              end))
        | inr _ => mret (info, Some missing_entry)
        end)
  end.

(** [update] *)
Definition update (u : Updater) (o : Oracle) : st (Info * option error) :=
  '(archivePath, err) ← fetch u o;
  match err with
  | Some e => mret (Info_zero, Some e)
  | None => defer (os_Remove archivePath) (unpack u archivePath o)
  end.

End Updater.

(** ** [StartUpdater]

    [StartUpdater] starts a goroutine and returns the channel the goroutine
    sends on.  The goroutine is a loop around a [select] on two channels.  Which case
    a [select] takes is the scheduler's choice, so the loop is run against a
    schedule: the sequence of cases taken.  A tick comes with the oracle of
    the cycle it starts and with whether the reader of [infoChan] ever takes
    the value sent ([infoChan] is unbuffered: the send blocks until then). *)

Inductive Ready :=
| TickC (o : Oracle) (received : bool)    (* case <-ticker.C *)
| CtxDone.                                (* case <-ctx.Done() *)

Inductive Goroutine :=
| Selecting                (* in the select, the schedule is used up *)
| Sending (info : Info)    (* blocked in infoChan <- info *)
| Exited.                  (* left the loop *)

Section Polling.
Context `{Platform}.

(** The goroutine of [StartUpdater] against a schedule: the values
    received on [infoChan], oldest first, and where the goroutine is when
    the schedule is used up. *)
Fixpoint StartUpdater (u : Updater) (sched : list Ready) : st (list Info * Goroutine) :=
  match sched with
  | [] => mret ([], Selecting)
  | CtxDone :: _ => mret ([], Exited)
  | TickC o received :: sched =>
      '(info, err) ← update u o;
      match err with
      | Some _ => StartUpdater u sched
      | None =>
          if received then
            '(sent, g) ← StartUpdater u sched;
            mret (info :: sent, g)
          else mret ([], Sending info)
      end
  end.

End Polling.

(** ** Specification-side notions *)

(** The entry an archive has under a name; the last one when several
    entries share the name. *)
Fixpoint last_named (name : string) (fs : list ZipFile) : option ZipFile :=
  match fs with
  | [] => None
  | f :: fs =>
      match last_named name fs with
      | Some g => Some g
      | None => if decide (zf_Name f = name) then Some f else None
      end
  end.

(** Every entry of the archive can be opened. *)
Definition openable (fs : list ZipFile) : Prop :=
  Forall (λ f, zf_OpenFault f = None) fs.

(** The ticks of a schedule. *)
Definition is_tick (r : Ready) : bool :=
  match r with TickC _ _ => true | CtxDone => false end.

Definition ticks (sched : list Ready) : nat :=
  length (filter is_tick sched).

(** The first entry of the archive that does not open, if any. *)
Definition first_fault (fs : list ZipFile) : option string :=
  head (omap zf_OpenFault fs).

(** The entry [unpack] takes for the binary: the one named [execPath].  An
    entry named "info.json" is always taken for the metadata. *)
Definition binary_named (execPath : string) (fs : list ZipFile) : option ZipFile :=
  if decide (execPath = "info.json") then None else last_named execPath fs.

(** Where [unpack] stages the binary. *)
Definition staged (u : Updater) : string := execPath u +:+ ".new".

(** The part of the world [unpack]'s handle bookkeeping never touches. *)
Definition outside (w : World) :=
  (files w, procs w, alive w, os_Args w, os_Environ w).

(** The calls of the range loop: one [Open] per entry, up to and including
    the first that fails. *)
Fixpoint open_calls (fs : list ZipFile) : list Event :=
  match fs with
  | [] => []
  | f :: fs =>
      Call OpEntryOpen (zf_Name f) ::
      match zf_OpenFault f with Some _ => [] | None => open_calls fs end
  end.

(** What [unpack] returns and what it leaves in the filesystem, as a
    function of the archive found at the path ([None]: no file there). *)
Definition unpack_summary `{Platform} (u : Updater) (o : Oracle)
    (archive : option bytes) (fs : gmap string bytes)
  : (Info * option error) * gmap string bytes :=
  match archive with
  | None => (Info_zero, Some (LibError OpOpenReader "no such file or directory"), fs)
  | Some b =>
    match zip_parse b with
    | inl d => (Info_zero, Some (LibError OpOpenReader d), fs)
    | inr entries =>
      match first_fault entries with
      | Some d => (Info_zero, Some (LibError OpEntryOpen d), fs)
      | None =>
        match last_named "info.json" entries, binary_named (execPath u) entries with
        | Some fi, Some fb =>
          match json_Decode (zf_Data fi) with
          | (info, Some d) => (info, Some (LibError OpDecode d), fs)
          | (info, None) =>
            match Create_fault o with
            | Some d => (info, Some (LibError OpCreate d), fs)
            | None =>
              match unpack_Copy_fault o with
              | Some (n, d) =>
                  (info, Some (LibError OpCopy d), <[staged u := take n (zf_Data fb)]> fs)
              | None => (info, None, <[staged u := zf_Data fb]> fs)
              end
            end
          end
        | _, _ => (Info_zero, Some missing_entry, fs)
        end
      end
    end
  end.

(** The calls [unpack] makes after the range loop. *)
Definition unpack_tail (u : Updater) : list (list Event) :=
  [ [];
    [Call OpDecode ""];
    [Call OpDecode ""; Call OpCreate (staged u)];
    [Call OpDecode ""; Call OpCreate (staged u); Call OpCopy (staged u)] ].

(** The oracles of the ticks of a schedule, in order. *)
Definition tick_oracles (sched : list Ready) : list Oracle :=
  omap (λ r, match r with TickC o _ => Some o | CtxDone => None end) sched.

(** The world after whole cycles, one per oracle, run one after another. *)
Definition run_cycles `{Platform} (u : Updater) (os : list Oracle) (w : World) : World :=
  foldl (λ w o, (update u o w).2) w os.

(** Descriptors from [next_fd] on are free: no open handle has one. *)
Definition fds_fresh (w : World) : Prop :=
  ∀ fd, (next_fd w ≤ fd)%nat → handles w !! fd = None.

(** The temporary file a cycle would create, if [ioutil.TempFile] succeeds. *)
Definition tmp_of (o : Oracle) : option string :=
  match TempFile_result o with inl _ => None | inr name => Some name end.

(** What [fetch] returns and what it leaves in the filesystem. *)
Definition fetch_summary (o : Oracle) (fs : gmap string bytes)
  : (string * option error) * gmap string bytes :=
  match http_Get_result o with
  | inl d => ("", Some (LibError OpHttpGet d), fs)
  | inr body =>
    match TempFile_result o with
    | inl d => ("", Some (LibError OpTempFile d), fs)
    | inr tmp =>
      match fetch_Copy_fault o with
      | None => (tmp, None, <[tmp := body]> fs)
      | Some (n, d) => (tmp, Some (LibError OpCopy d), <[tmp := take n body]> fs)
      end
    end
  end.

(** What [update] returns and what it leaves in the filesystem. *)
Definition update_summary `{Platform} (u : Updater) (o : Oracle)
    (fs : gmap string bytes) : (Info * option error) * gmap string bytes :=
  match fetch_summary o fs with
  | (_, Some e, fs1) => (Info_zero, Some e, fs1)
  | (archivePath, None, fs1) =>
      let '(r, fs2) := unpack_summary u o (fs1 !! archivePath) fs1 in
      (r, delete archivePath fs2)
  end.

(** ** Example inputs

    A host on which the updater runs as /opt/app, and archives as a server
    may answer them.  The stand-ins for the two decoders know exactly the
    documents of the examples and reject everything else. *)

#[global] Instance byte_eq_dec : EqDecision Byte.byte := Byte.byte_eq_dec.

Definition dquote : string := String (Ascii.ascii_of_nat 34) EmptyString.

Definition json_field (key value : string) : string :=
  dquote +:+ key +:+ dquote +:+ ":" +:+ dquote +:+ value +:+ dquote.

(** The document of the scenario: name svc, version 1.2.3, description x. *)
Definition demo_info_json : bytes :=
  String.list_byte_of_string
    ("{" +:+ json_field "name" "svc" +:+ "," +:+ json_field "version" "1.2.3"
         +:+ "," +:+ json_field "description" "x" +:+ "}").

Definition demo_binary : bytes := String.list_byte_of_string "ELF new build".

Definition demo_info_entry : ZipFile := mkZipFile "info.json" demo_info_json None.
Definition demo_binary_entry : ZipFile := mkZipFile "/opt/app" demo_binary None.
Definition demo_bad_entry : ZipFile :=
  mkZipFile "info.json" (String.list_byte_of_string "{name:") None.
Definition demo_svc : Info := mkInfo "svc" "1.2.3" "x".

Definition demo_json_Decode (b : bytes) : Info * option string :=
  if decide (b = demo_info_json) then (demo_svc, None)
  else (Info_zero, Some "invalid character").

Definition demo_archives : list (bytes * list ZipFile) :=
  [ (String.list_byte_of_string "full",
     [mkZipFile "info.json" demo_info_json None;
      mkZipFile "/opt/app" demo_binary None]);
    (String.list_byte_of_string "extra",
     [mkZipFile "README" [] None;
      mkZipFile "info.json" demo_info_json None;
      mkZipFile "/opt/app" demo_binary None]);
    (String.list_byte_of_string "no info",
     [mkZipFile "/opt/app" demo_binary None]);
    (String.list_byte_of_string "no binary",
     [mkZipFile "info.json" demo_info_json None]);
    (String.list_byte_of_string "other name",
     [mkZipFile "info.json" demo_info_json None;
      mkZipFile "app" demo_binary None]);
    (String.list_byte_of_string "bad json",
     [mkZipFile "info.json" (String.list_byte_of_string "{name:") None;
      mkZipFile "/opt/app" demo_binary None]) ].

Fixpoint demo_zip_parse_in (t : list (bytes * list ZipFile)) (b : bytes)
  : string + list ZipFile :=
  match t with
  | [] => inl "zip: not a valid zip file"
  | (k, v) :: t => if decide (b = k) then inr v else demo_zip_parse_in t b
  end.

Definition demo_platform : Platform :=
  {| zip_parse := demo_zip_parse_in demo_archives;
     json_Decode := demo_json_Decode;
     filepath_Dir := λ _, "/opt" |}.

Definition demo_updater : Updater := mkUpdater "http://upstream/app.zip" 60 "/opt/app".

(** The running executable, and one downloaded archive of each kind. *)
Definition demo_files : gmap string bytes :=
  {[ "/opt/app" := String.list_byte_of_string "ELF old build";
     "/tmp/full" := String.list_byte_of_string "full";
     "/tmp/extra" := String.list_byte_of_string "extra";
     "/tmp/no-info" := String.list_byte_of_string "no info";
     "/tmp/no-binary" := String.list_byte_of_string "no binary";
     "/tmp/other-name" := String.list_byte_of_string "other name";
     "/tmp/bad-json" := String.list_byte_of_string "bad json" ]}.

Definition demo_world : World :=
  mkWorld demo_files ∅ 3 [] true ["/opt/app"; "--serve"] ["HOME=/root"] [].

(** The server answers with the given archive and nothing fails. *)
Definition demo_oracle (archive : string) : Oracle :=
  calm (inr (String.list_byte_of_string archive)) "/tmp/download".

(** The rename of the executable is refused. *)
Definition demo_oracle_refused : Oracle :=
  mkOracle (inl "unused") (inl "unused") None None None
           (Some "permission denied") None None None.

(** The connection breaks after two bytes of the body. *)
Definition demo_oracle_broken : Oracle :=
  mkOracle (inr (String.list_byte_of_string "full")) (inr "/tmp/download")
           (Some (2, "connection reset by peer")) None None None None None None.

(** More archives: one with an entry that does not open, one that holds
    the metadata and the binary twice, one with the two entries swapped. *)
Definition demo_corrupt_entry : ZipFile :=
  mkZipFile "README" [] (Some "zip: unsupported compression algorithm").
Definition demo_stale_entry : ZipFile :=
  mkZipFile "/opt/app" (String.list_byte_of_string "ELF stale build") None.

Definition demo_archives_more : list (bytes * list ZipFile) :=
  demo_archives ++
  [ (String.list_byte_of_string "corrupt",
     [demo_info_entry; demo_binary_entry; demo_corrupt_entry]);
    (String.list_byte_of_string "twice",
     [demo_bad_entry; demo_stale_entry; demo_info_entry; demo_binary_entry]);
    (String.list_byte_of_string "swapped", [demo_binary_entry; demo_info_entry]) ].

Definition demo_platform_more : Platform :=
  {| zip_parse := demo_zip_parse_in demo_archives_more;
     json_Decode := demo_json_Decode;
     filepath_Dir := λ _, "/opt" |}.

Definition demo_files_more : gmap string bytes :=
  <["/tmp/corrupt" := String.list_byte_of_string "corrupt"]>
  (<["/tmp/twice" := String.list_byte_of_string "twice"]>
  (<["/tmp/swapped" := String.list_byte_of_string "swapped"]>
  (<["/opt/app.new" := String.list_byte_of_string "ELF staged earlier"]> demo_files))).

Definition demo_world_more : World :=
  mkWorld demo_files_more ∅ 3 [] true ["/opt/app"; "--serve"] ["HOME=/root"] [].

(** The staged file cannot be created. *)
Definition demo_oracle_no_create : Oracle :=
  mkOracle (inr (String.list_byte_of_string "full")) (inr "/tmp/download")
           None (Some "permission denied") None None None None None.

(** The disk is full after three bytes of the binary. *)
Definition demo_oracle_disk_full : Oracle :=
  mkOracle (inr (String.list_byte_of_string "full")) (inr "/tmp/download")
           None None (Some (3, "no space left on device")) None None None None.

(** The server cannot be reached. *)
Definition demo_oracle_unreachable : Oracle :=
  mkOracle (inl "connection refused") (inr "/tmp/download")
           None None None None None None None.

(** ** Running monadic code in proofs *)

Ltac run_cbn :=
  cbn [mbind mret st_bind st_ret modify gets record defer open_handle Close
       fst snd files handles next_fd procs alive os_Args os_Environ log
       set_files set_handles set_next_fd set_procs set_alive set_log
       fmap option_fmap option_map] in *.
Ltac run_unfold :=
  unfold mbind, mret, st_bind, st_ret, modify, gets, record, defer,
         open_handle, Close in *.
Ltac run := repeat first [progress run_cbn | progress run_unfold].

(** Lookups in a table of handles after inserts and deletes at descriptors
    that are all different, against a case distinction on the key. *)
Ltac lookup_cases :=
  let k := fresh "k" in
  intros k; rewrite !lookup_delete, !lookup_insert;
  repeat case_decide; try done; try lia;
  match goal with
  | Hk : _ ∨ _ |- _ => destruct Hk as [-> | [-> | [-> | ->]]]; first [done | lia]
  end.

(** ** Facts about the specification-side notions *)

Lemma first_fault_openable fs : first_fault fs = None ↔ openable fs.
Proof.
  unfold first_fault, openable. induction fs as [|f fs IH]; simpl.
  - split; [constructor | done].
  - destruct (zf_OpenFault f) eqn:E; simpl.
    + split; [done | intros Hall; inversion Hall; congruence].
    + rewrite IH. split; [by constructor | intros Hall; by inversion Hall].
Qed.

Lemma last_named_name name fs f : last_named name fs = Some f → zf_Name f = name.
Proof.
  induction fs as [|g fs IH]; simpl; [done |].
  destruct (last_named name fs); [auto |].
  case_decide; congruence.
Qed.

Lemma last_named_elem name fs f : last_named name fs = Some f → f ∈ fs.
Proof.
  induction fs as [|g fs IH]; simpl; [done |].
  destruct (last_named name fs).
  - intros. right. auto.
  - case_decide; [intros [= ->]; left | done].
Qed.

Lemma last_named_None name fs :
  last_named name fs = None ↔ ∀ f, f ∈ fs → zf_Name f ≠ name.
Proof.
  induction fs as [|g fs IH]; simpl.
  - split; [intros _ f Hf; inversion Hf | done].
  - destruct (last_named name fs) as [h|] eqn:E.
    + split; [done |]. intros Hall.
      destruct (Hall h); [right; by eapply last_named_elem | by eapply last_named_name].
    + case_decide as Hn.
      * split; [done |]. intros Hall. destruct (Hall g); [left | done].
      * split; [| done]. intros _ f Hf.
        apply elem_of_cons in Hf as [-> | Hf]; [done | by apply IH].
Qed.

Lemma binary_named_last ep fs :
  ep ≠ "info.json" → binary_named ep fs = last_named ep fs.
Proof. unfold binary_named. by case_decide. Qed.


Lemma append_old_ne (s : string) : s ≠ s +:+ ".old".
Proof.
  induction s as [|a s IH]; [done |].
  intros Heq. apply IH. unfold String.app in Heq. fold String.app in Heq.
  by injection Heq.
Qed.

(** ** The range loop *)

Section RangeLoop.
Context `{Platform}.

Lemma unpack_range_outside ep fs : ∀ i b w r w',
  unpack_range ep fs i b w = (r, w') → outside w' = outside w.
Proof.
  induction fs as [|f fs IH]; intros i b w r w'; simpl.
  - by intros [= <- <-].
  - unfold zip_File_Open. run. destruct (zf_OpenFault f); run.
    + by intros [= <- <-].
    + repeat case_decide; intros Hr; by apply IH in Hr.
Qed.

Lemma unpack_range_log ep fs : ∀ i b w r w',
  unpack_range ep fs i b w = (r, w') → log w' = log w ++ open_calls fs.
Proof.
  induction fs as [|f fs IH]; intros i b w r w'; simpl.
  - intros [= <- <-]. by rewrite app_nil_r.
  - unfold zip_File_Open. run. destruct (zf_OpenFault f); run.
    + by intros [= <- <-].
    + repeat case_decide; intros Hr; apply IH in Hr; rewrite Hr; simpl;
        by rewrite <- app_assoc.
Qed.

Lemma unpack_range_fault ep fs d : ∀ i b w,
  first_fault fs = Some d →
  (unpack_range ep fs i b w).1 = inl (LibError OpEntryOpen d).
Proof.
  unfold first_fault.
  induction fs as [|f fs IH]; intros i b w; simpl; [done |].
  unfold zip_File_Open. run. destruct (zf_OpenFault f); run; simpl.
  - by intros [= ->].
  - intros Hd. repeat case_decide; by apply IH.
Qed.

Lemma unpack_range_found ep fs : ∀ i b w,
  first_fault fs = None →
  ∃ i' b', (unpack_range ep fs i b w).1 = inr (i', b') ∧
    rc_data <$> i' = match last_named "info.json" fs with
                     | Some f => Some (zf_Data f)
                     | None => rc_data <$> i
                     end ∧
    rc_data <$> b' = match binary_named ep fs with
                     | Some f => Some (zf_Data f)
                     | None => rc_data <$> b
                     end.
Proof.
  unfold first_fault, binary_named.
  induction fs as [|f fs IH]; intros i b w; simpl.
  - intros _. exists i, b. by case_decide.
  - unfold zip_File_Open. run. destruct (zf_OpenFault f); run; simpl; [done |].
    intros Hf.
    match goal with |- context [set_next_fd ?n ?w1] => set (w' := set_next_fd n w1) end.
    destruct (decide (zf_Name f = "info.json")) as [Hi | Hi].
    + destruct (IH (Some (mkReadCloser (next_fd w) (zf_Data f))) b w' Hf)
        as (i' & b' & -> & Hi' & Hb').
      exists i', b'. split; [done |]. rewrite Hi', Hb'. split.
      * by destruct (last_named "info.json" fs).
      * case_decide; [done |].
        destruct (last_named ep fs); [done |]. case_decide; [congruence | done].
    + destruct (decide (zf_Name f = ep)) as [He | He].
      * destruct (IH i (Some (mkReadCloser (next_fd w) (zf_Data f))) w' Hf)
          as (i' & b' & -> & Hi' & Hb').
        exists i', b'. split; [done |]. rewrite Hi', Hb'. split.
        -- by destruct (last_named "info.json" fs).
        -- case_decide; [congruence |]. by destruct (last_named ep fs).
      * destruct (IH i b w' Hf) as (i' & b' & -> & Hi' & Hb').
        exists i', b'. split; [done |]. rewrite Hi', Hb'. split.
        -- by destruct (last_named "info.json" fs).
        -- case_decide; [done |]. by destruct (last_named ep fs).
Qed.

End RangeLoop.

(** ** [unpack] against its summary *)

Section Unpack.
Context `{Platform}.

Lemma outside_files w w' : outside w' = outside w → files w' = files w.
Proof. unfold outside. by intros [= -> _ _ _ _]. Qed.

Lemma staged_write (fs : gmap string bytes) name data :
  <[name := default [] (<[name := []]> fs !! name) ++ data]> (<[name := []]> fs)
  = <[name := data]> fs.
Proof. by rewrite lookup_insert_eq, insert_insert_eq. Qed.

Lemma unpack_correct u path o w :
  (unpack u path o w).1 = (unpack_summary u o (files w !! path) (files w)).1 ∧
  files (unpack u path o w).2 = (unpack_summary u o (files w !! path) (files w)).2 ∧
  procs (unpack u path o w).2 = procs w ∧
  alive (unpack u path o w).2 = alive w.
Proof.
  unfold unpack, unpack_summary, zip_OpenReader. run.
  destruct (files w !! path) as [b|]; run; [| done].
  destruct (zip_parse b) as [d | entries]; run; [done |].
  match goal with |- context [set_next_fd ?n ?w0] => set (w1 := set_next_fd n w0) end.
  destruct (unpack_range (execPath u) entries None None w1) as [r w2] eqn:Hr.
  pose proof (unpack_range_outside _ _ _ _ _ _ _ Hr) as Hout.
  unfold outside in Hout. injection Hout as Hfs Hps Hal _ _.
  destruct (first_fault entries) as [d|] eqn:Hff.
  - pose proof (unpack_range_fault (execPath u) entries d None None w1 Hff) as Hf.
    rewrite Hr in Hf. simpl in Hf. subst r w1. by run.
  - destruct (unpack_range_found (execPath u) entries None None w1 Hff)
      as (i' & b' & Hf & Hi & Hb).
    rewrite Hr in Hf. simpl in Hf. subst r w1. run.
    destruct (last_named "info.json" entries) as [fi|], i' as [infoFile|];
      try discriminate Hi;
      destruct (binary_named (execPath u) entries) as [fb|], b' as [binaryFile|];
      try discriminate Hb; run; try done.
    injection Hi as Hi. injection Hb as Hb.
    unfold json_NewDecoder_Decode. run. rewrite Hi.
    destruct (json_Decode (zf_Data fi)) as [info [d|]]; run; [done |].
    unfold os_Create. run.
    destruct (Create_fault o) as [d|]; run; [done |].
    unfold io_Copy. run. rewrite Hb, Hfs, Hps, Hal.
    destruct (unpack_Copy_fault o) as [[n d]|]; run;
      by rewrite staged_write.
Qed.

Lemma unpack_log u path o w :
  ∃ calls tail,
    log (unpack u path o w).2 = log w ++ Call OpOpenReader path :: calls ++ tail ∧
    Forall (λ e, ev_op e = OpEntryOpen) calls ∧
    tail ∈ unpack_tail u.
Proof.
  assert (Hnil : [] ∈ unpack_tail u) by (unfold unpack_tail; rewrite !elem_of_cons; tauto).
  unfold unpack, zip_OpenReader. run.
  destruct (files w !! path) as [b|]; run; [| by exists [], []].
  destruct (zip_parse b) as [d | entries]; run; [by exists [], [] |].
  match goal with |- context [set_next_fd ?n ?w0] => set (w1 := set_next_fd n w0) end.
  destruct (unpack_range (execPath u) entries None None w1) as [r w2] eqn:Hr.
  apply unpack_range_log in Hr as Hlog. subst w1. run.
  exists (open_calls entries).
  assert (Hcalls : Forall (λ e, ev_op e = OpEntryOpen) (open_calls entries)).
  { clear. induction entries as [|f fs IH]; simpl; [constructor |].
    constructor; [done |]. destruct (zf_OpenFault f); [constructor | done]. }
  destruct r as [e | [[infoFile|] [binaryFile|]]]; run;
    try (exists []; rewrite Hlog, app_nil_r, <- app_assoc; by simpl).
  unfold json_NewDecoder_Decode. run.
  destruct (json_Decode (rc_data infoFile)) as [info [d|]]; run.
  { exists [Call OpDecode ""]. rewrite Hlog, <- !app_assoc. simpl.
    split_and!; [done | done | unfold unpack_tail; rewrite !elem_of_cons; tauto]. }
  unfold os_Create. run.
  destruct (Create_fault o) as [d|]; run.
  { exists [Call OpDecode ""; Call OpCreate (staged u)].
    rewrite Hlog, <- !app_assoc. simpl.
    split_and!; [done | done | unfold unpack_tail; rewrite !elem_of_cons; tauto]. }
  unfold io_Copy. run.
  exists [Call OpDecode ""; Call OpCreate (staged u); Call OpCopy (staged u)].
  rewrite Hlog, <- !app_assoc. simpl.
  split_and!; [done | done | unfold unpack_tail; rewrite !elem_of_cons; tauto].
Qed.

End Unpack.

(** ** Claims about [unpack] *)

Section UnpackClaims.
Context `{Platform}.

(** C1: for an archive that has both required entries, a metadata entry
    named "info.json" that decodes to [info] and a binary entry (the entry
    named by the executable path), every entry of which opens, and when
    creating and writing the staged file do not fail, [unpack] returns
    exactly [info] with no error and leaves at [execPath + ".new"] a file
    whose bytes are those of the binary entry. *)
Theorem unpack_well_formed_archive u path o w b entries fi fb info :
  files w !! path = Some b →
  zip_parse b = inr entries →
  openable entries →
  execPath u ≠ "info.json" →
  last_named "info.json" entries = Some fi →
  last_named (execPath u) entries = Some fb →
  json_Decode (zf_Data fi) = (info, None) →
  Create_fault o = None →
  unpack_Copy_fault o = None →
  (unpack u path o w).1 = (info, None) ∧
  files (unpack u path o w).2 = <[execPath u +:+ ".new" := zf_Data fb]> (files w).
Proof.
  intros Hb Hz Hopen Hne Hfi Hfb Hj Hc Hcp.
  destruct (unpack_correct u path o w) as (Hr & Hfs & _).
  rewrite Hr, Hfs. unfold unpack_summary.
  apply first_fault_openable in Hopen.
  by rewrite Hb, Hz, Hopen, Hfi, binary_named_last, Hfb, Hj, Hc, Hcp.
Qed.

(** C2: on an archive that opens and whose entries all open, [unpack]
    fails with the missing-entry error when there is no metadata entry and
    when there is no binary entry; it fails with the decoder's error, which
    is not the missing-entry error, when both are there and the metadata
    does not decode; and every error it returns is the missing-entry error
    with an entry missing, the decoder's error, or an error of creating or
    writing the staged file. *)
Theorem unpack_error_kinds u path o w b entries :
  files w !! path = Some b →
  zip_parse b = inr entries →
  openable entries →
  (last_named "info.json" entries = None →
     (unpack u path o w).1.2 = Some missing_entry) ∧
  (last_named (execPath u) entries = None →
     (unpack u path o w).1.2 = Some missing_entry) ∧
  (∀ fi fb info d,
     execPath u ≠ "info.json" →
     last_named "info.json" entries = Some fi →
     last_named (execPath u) entries = Some fb →
     json_Decode (zf_Data fi) = (info, Some d) →
     (unpack u path o w).1.2 = Some (LibError OpDecode d) ∧
     LibError OpDecode d ≠ missing_entry) ∧
  (∀ e, (unpack u path o w).1.2 = Some e →
     (e = missing_entry ∧
        (last_named "info.json" entries = None ∨
         binary_named (execPath u) entries = None)) ∨
     (∃ fi d, e = LibError OpDecode d ∧
        last_named "info.json" entries = Some fi ∧
        (json_Decode (zf_Data fi)).2 = Some d) ∨
     (∃ d, e = LibError OpCreate d ∧ Create_fault o = Some d) ∨
     (∃ n d, e = LibError OpCopy d ∧ unpack_Copy_fault o = Some (n, d))).
Proof.
  intros Hb Hz Hopen.
  destruct (unpack_correct u path o w) as (Hr & _).
  rewrite Hr. unfold unpack_summary.
  apply first_fault_openable in Hopen. rewrite Hb, Hz, Hopen. clear Hr.
  split_and!.
  - by intros ->.
  - intros Hn. unfold binary_named. case_decide; [| rewrite Hn];
      by destruct (last_named "info.json" entries).
  - intros fi fb info d Hne Hfi Hfb Hj.
    by rewrite Hfi, binary_named_last, Hfb, Hj.
  - intros e.
    destruct (last_named "info.json" entries) as [fi|];
      [| intros [= <-]; left; auto].
    destruct (binary_named (execPath u) entries) as [fb|];
      [| intros [= <-]; left; auto].
    destruct (json_Decode (zf_Data fi)) as [info [d|]] eqn:Hj.
    { intros [= <-]. right; left. exists fi, d. by rewrite Hj. }
    destruct (Create_fault o) as [d|].
    { intros [= <-]. right; right; left. by exists d. }
    destruct (unpack_Copy_fault o) as [[n d]|]; [| done].
    intros [= <-]. right; right; right. by exists n, d.
Qed.

(** C7: for an archive in which the metadata entry or the binary entry is
    absent, [unpack] returns an error of the archive, the missing-entry
    error unless an entry failed to open before, and the filesystem is as
    it was before the call: nothing is created at [execPath + ".new"]. *)
Theorem unpack_missing_entry_no_output u path o w b entries :
  files w !! path = Some b →
  zip_parse b = inr entries →
  last_named "info.json" entries = None ∨ last_named (execPath u) entries = None →
  (unpack u path o w).1.2 =
    Some (match first_fault entries with
          | Some d => LibError OpEntryOpen d
          | None => missing_entry
          end) ∧
  files (unpack u path o w).2 = files w.
Proof.
  intros Hb Hz Hmiss.
  destruct (unpack_correct u path o w) as (Hr & Hfs & _).
  rewrite Hr, Hfs. unfold unpack_summary. rewrite Hb, Hz.
  destruct (first_fault entries); [done |].
  destruct Hmiss as [-> | Hn]; [done |].
  unfold binary_named. case_decide; [| rewrite Hn];
    by destruct (last_named "info.json" entries).
Qed.


(** The archive is closed on every path out of [unpack]: the descriptor
    [zip.OpenReader] handed out is free again when [unpack] returns. *)
Lemma unpack_closes_archive u path o w :
  handles (unpack u path o w).2 !! next_fd w = handles w !! next_fd w ∨
  handles (unpack u path o w).2 !! next_fd w = None.
Proof.
  unfold unpack, zip_OpenReader. run.
  destruct (files w !! path) as [b|]; run; [| by left].
  destruct (zip_parse b) as [d | entries]; run; [by left |].
  match goal with |- context [unpack_range ?a ?b ?c ?d ?w1] =>
    destruct (unpack_range a b c d w1) as [r w2] end.
  right.
  destruct r as [e | [[infoFile|] [binaryFile|]]]; run;
    try apply lookup_delete_eq.
  unfold json_NewDecoder_Decode. run.
  destruct (json_Decode (rc_data infoFile)) as [info [d|]]; run;
    [apply lookup_delete_eq |].
  unfold os_Create. run.
  destruct (Create_fault o); run; apply lookup_delete_eq.
Qed.

Lemma create_after_decode u name (tail pre l1 l2 : list Event) :
  tail ∈ unpack_tail u →
  Forall (λ e, ev_op e ≠ OpCreate) pre →
  pre ++ tail = l1 ++ Call OpCreate name :: l2 →
  Call OpDecode "" ∈ l1.
Proof.
  intros Htail Hpre. revert l1.
  induction Hpre as [|e pre He Hpre IH]; intros l1; simpl.
  - unfold unpack_tail in Htail. rewrite !elem_of_cons in Htail.
    destruct Htail as [-> | [-> | [-> | [-> | Hnil]]]];
      [| | | | by apply elem_of_nil in Hnil];
      (destruct l1 as [|e l1]; simpl; [done |]);
      intros [= <- _]; by left.
  - destruct l1 as [|e1 l1]; simpl.
    + intros [= -> _]. by destruct He.
    + intros [= _ Heq]. right. by apply IH.
Qed.

(** C10: [unpack] decodes the metadata before it creates the staged file:
    in the calls of one invocation a create is preceded by the decode, and
    an invocation that returns the missing-entry error or the decoder's
    error leaves the filesystem as it was, with no file created at
    [execPath + ".new"]. *)
Theorem unpack_decodes_before_staging u path o w e :
  (unpack u path o w).1.2 = Some e →
  e = missing_entry ∨ (∃ d, e = LibError OpDecode d) →
  files (unpack u path o w).2 = files w ∧
  (∀ l1 l2 name,
     log (unpack u path o w).2 = log w ++ l1 ++ Call OpCreate name :: l2 →
     Call OpDecode "" ∈ l1).
Proof.
  intros He Hkind. split.
  - destruct (unpack_correct u path o w) as (Hr & Hfs & _).
    rewrite Hr in He. rewrite Hfs. clear Hr Hfs.
    unfold unpack_summary in *.
    destruct (files w !! path) as [b|]; [| done].
    destruct (zip_parse b) as [d | entries]; [done |].
    destruct (first_fault entries); [done |].
    destruct (last_named "info.json" entries) as [fi|]; [| done].
    destruct (binary_named (execPath u) entries) as [fb|]; [| done].
    destruct (json_Decode (zf_Data fi)) as [info [d|]]; [done |].
    destruct (Create_fault o) as [d|]; [done |].
    destruct (unpack_Copy_fault o) as [[n d]|]; [| done].
    simpl in He. injection He as <-.
    destruct Hkind as [Hk | [d' Hk]]; discriminate Hk.
  - intros l1 l2 name Hlog.
    destruct (unpack_log u path o w) as (calls & tail & Hl & Hcalls & Htail).
    rewrite Hl in Hlog. apply app_inv_head in Hlog.
    apply (create_after_decode u name tail (Call OpOpenReader path :: calls) l1 l2);
      [done | | by rewrite <- Hlog].
    constructor; [done |].
    eapply Forall_impl; [exact Hcalls |]. simpl. intros x ->. done.
Qed.

End UnpackClaims.

(** ** Claims about a cycle and the polling loop *)

Section Cycle.
Context `{Platform}.

(** X18: when [fetch] succeeds, the archive it downloaded is gone when
    [update] returns, whatever [unpack] did. *)
Lemma update_removes_archive u o w p :
  (fetch u o w).1 = (p, None) →
  files (update u o w).2 !! p = None.
Proof.
  unfold update. run.
  destruct (fetch u o w) as [[p' err] w1]. simpl. intros [= -> ->].
  destruct (unpack u p o w1) as [r w2]. run. apply lookup_delete_eq.
Qed.

(** When the download breaks after the temporary file was created,
    [update] returns the error of the copy and the file stays. *)
Lemma update_fetch_copy_fails u o w body tmp n d :
  http_Get_result o = inr body →
  TempFile_result o = inr tmp →
  fetch_Copy_fault o = Some (n, d) →
  (update u o w).1.2 = Some (LibError OpCopy d) ∧
  files (update u o w).2 !! tmp = Some (take n body).
Proof.
  intros Hget Htmp Hcopy.
  unfold update, fetch, http_Get, ioutil_TempFile, io_Copy. run.
  rewrite Hget. run. rewrite Htmp. run. rewrite Hcopy. run.
  split; [done |]. by rewrite !lookup_insert_eq.
Qed.

Lemma StartUpdater_tick u o received sched w :
  StartUpdater u (TickC o received :: sched) w =
  match (update u o w).1.2 with
  | Some _ => StartUpdater u sched (update u o w).2
  | None =>
      if received then
        ((update u o w).1.1 :: (StartUpdater u sched (update u o w).2).1.1,
         (StartUpdater u sched (update u o w).2).1.2,
         (StartUpdater u sched (update u o w).2).2)
      else ([], Sending (update u o w).1.1, (update u o w).2)
  end.
Proof.
  simpl. run. destruct (update u o w) as [[info [e|]] w1]; simpl; [done |].
  destruct received; [| done].
  by destruct (StartUpdater u sched w1) as [[sent g] w2].
Qed.

Lemma StartUpdater_length u sched : ∀ w,
  (length (StartUpdater u sched w).1.1 ≤ ticks sched)%nat.
Proof.
  unfold ticks.
  induction sched as [|[o received|] sched IH]; intros w;
    [simpl; lia | | simpl; lia].
  rewrite StartUpdater_tick. simpl.
  destruct ((update u o w).1.2).
  - etrans; [apply IH | lia].
  - destruct received; simpl; [| lia]. specialize (IH (update u o w).2). lia.
Qed.

Lemma StartUpdater_app u s1 s2 : ∀ w,
  (StartUpdater u (s1 ++ s2) w).1.1 =
  (StartUpdater u s1 w).1.1 ++
    match (StartUpdater u s1 w).1.2 with
    | Selecting => (StartUpdater u s2 (StartUpdater u s1 w).2).1.1
    | _ => []
    end.
Proof.
  induction s1 as [|[o received|] s1 IH]; intros w; [done | | done].
  rewrite <- app_comm_cons, !StartUpdater_tick.
  destruct ((update u o w).1.2); [apply IH |].
  destruct received; simpl; [| done]. by rewrite IH.
Qed.

Lemma StartUpdater_whole_cycles u sched : ∀ w,
  ∃ n, (StartUpdater u sched w).2 = run_cycles u (take n (tick_oracles sched)) w.
Proof.
  induction sched as [|[o received|] sched IH]; intros w;
    [by exists 0 | | by exists 0].
  rewrite StartUpdater_tick.
  destruct (IH (update u o w).2) as [n Hn].
  destruct ((update u o w).1.2); [by exists (S n) |].
  destruct received; [by exists (S n) | by exists 1].
Qed.

(** C4: run against any schedule of its [select], the polling loop sends
    at most one metadata value per tick; what later cases send comes after
    what earlier ones sent; a cycle that fails sends nothing and the loop
    goes on with the next case; once the cancellation case is taken nothing
    is sent and the loop has exited; and the world the loop leaves is
    always that of whole cycles, each run to its end. *)
Theorem StartUpdater_emits_per_tick_until_done u :
  (∀ sched w, (length (StartUpdater u sched w).1.1 ≤ ticks sched)%nat) ∧
  (∀ s1 s2 w,
     (StartUpdater u (s1 ++ s2) w).1.1 =
     (StartUpdater u s1 w).1.1 ++
       match (StartUpdater u s1 w).1.2 with
       | Selecting => (StartUpdater u s2 (StartUpdater u s1 w).2).1.1
       | _ => []
       end) ∧
  (∀ o received sched w e,
     (update u o w).1.2 = Some e →
     StartUpdater u (TickC o received :: sched) w
     = StartUpdater u sched (update u o w).2) ∧
  (∀ o sched w,
     (update u o w).1.2 = None →
     (StartUpdater u (TickC o true :: sched) w).1.1 =
     (update u o w).1.1 :: (StartUpdater u sched (update u o w).2).1.1) ∧
  (∀ sched w, StartUpdater u (CtxDone :: sched) w = ([], Exited, w)) ∧
  (∀ sched w, ∃ n,
     (StartUpdater u sched w).2 = run_cycles u (take n (tick_oracles sched)) w).
Proof.
  split_and!.
  - intros. apply StartUpdater_length.
  - intros. apply StartUpdater_app.
  - intros o received sched w e He. by rewrite StartUpdater_tick, He.
  - intros o sched w He. by rewrite StartUpdater_tick, He.
  - done.
  - intros. apply StartUpdater_whole_cycles.
Qed.

End Cycle.

(** ** Claims about [RestartAndUpdate] *)

Section Restart.
Context `{Platform}.

(** C5: when the rename of the executable to its ".old" path fails,
    [RestartAndUpdate] returns that error and the filesystem, the
    processes started and the current process are as before the call. *)
Theorem RestartAndUpdate_rename_fails u o w e :
  (os_Rename (execPath u) (execPath u +:+ ".old") (Rename_fault o) w).1 = Some e →
  (RestartAndUpdate u o w).1 = Some e ∧
  files (RestartAndUpdate u o w).2 = files w ∧
  procs (RestartAndUpdate u o w).2 = procs w ∧
  alive (RestartAndUpdate u o w).2 = alive w.
Proof.
  unfold RestartAndUpdate, os_Rename. run.
  destruct (files w !! execPath u) as [b|]; run.
  - destruct (Rename_fault o) as [d|]; run; [| done]. by intros [= <-].
  - by intros [= <-].
Qed.


(** The calls of [RestartAndUpdate] are made in the order rename, start
    the process, find the current process, kill it; the last two are never
    reached. *)
Lemma RestartAndUpdate_calls u o w :
  ∃ n, (n ≤ 2)%nat ∧
       log (RestartAndUpdate u o w).2 =
       log w ++ take n [Call OpRename (execPath u); Call OpStartProcess (execPath u);
                        Call OpFindProcess ""; Call OpKill ""].
Proof.
  unfold RestartAndUpdate, os_Rename, os_StartProcess. run.
  destruct (files w !! execPath u) as [b|]; run; [| exists 1; split; [lia | done]].
  destruct (Rename_fault o); run; [exists 1; split; [lia | done] |].
  rewrite lookup_insert_ne by (symmetry; apply append_old_ne).
  rewrite lookup_delete_eq. run.
  exists 2. split; [lia |]. by rewrite <- app_assoc.
Qed.

End Restart.

(** ** The claims on the example host *)

Section Examples.
Local Existing Instance demo_platform.

(** The scenario of C1: the archive holds info.json and the binary. *)
Lemma unpack_well_formed_archive_witness :
  (unpack demo_updater "/tmp/full" (demo_oracle "full") demo_world).1 = (demo_svc, None) ∧
  files (unpack demo_updater "/tmp/full" (demo_oracle "full") demo_world).2
  = <["/opt/app.new" := demo_binary]> demo_files.
Proof.
  apply (unpack_well_formed_archive demo_updater "/tmp/full" (demo_oracle "full")
           demo_world (String.list_byte_of_string "full")
           [demo_info_entry; demo_binary_entry] demo_info_entry demo_binary_entry
           demo_svc);
    first [ vm_compute; reflexivity | discriminate | repeat constructor ].
Defined.

(** C2 on an archive whose info.json does not decode. *)
Lemma unpack_error_kinds_witness :
  (unpack demo_updater "/tmp/bad-json" (demo_oracle "bad json") demo_world).1.2
  = Some (LibError OpDecode "invalid character") ∧
  LibError OpDecode "invalid character" ≠ missing_entry.
Proof.
  destruct (unpack_error_kinds demo_updater "/tmp/bad-json" (demo_oracle "bad json")
              demo_world (String.list_byte_of_string "bad json") [demo_bad_entry; demo_binary_entry])
    as (_ & _ & Hdecode & _);
    [ vm_compute; reflexivity | vm_compute; reflexivity | repeat constructor | ].
  apply (Hdecode demo_bad_entry demo_binary_entry Info_zero "invalid character");
    first [ vm_compute; reflexivity | discriminate ].
Defined.

(** C7 on an archive without info.json. *)
Lemma unpack_missing_entry_no_output_witness :
  (unpack demo_updater "/tmp/no-info" (demo_oracle "no info") demo_world).1.2
  = Some missing_entry ∧
  files (unpack demo_updater "/tmp/no-info" (demo_oracle "no info") demo_world).2
  = demo_files.
Proof.
  apply (unpack_missing_entry_no_output demo_updater "/tmp/no-info"
           (demo_oracle "no info") demo_world
           (String.list_byte_of_string "no info") [demo_binary_entry]);
    [ vm_compute; reflexivity | vm_compute; reflexivity | ].
  left. vm_compute. reflexivity.
Defined.


(** C10 on an archive whose info.json does not decode. *)
Lemma unpack_decodes_before_staging_witness :
  files (unpack demo_updater "/tmp/bad-json" (demo_oracle "bad json") demo_world).2
  = demo_files.
Proof.
  apply (unpack_decodes_before_staging demo_updater "/tmp/bad-json"
           (demo_oracle "bad json") demo_world
           (LibError OpDecode "invalid character")).
  - vm_compute. reflexivity.
  - right. exists "invalid character". reflexivity.
Defined.

(** C4: a cycle whose download breaks, then a good one, then cancellation. *)
Lemma StartUpdater_emits_per_tick_until_done_witness :
  StartUpdater demo_updater
       [TickC demo_oracle_broken true; TickC (demo_oracle "full") true; CtxDone;
        TickC (demo_oracle "full") true] demo_world
  = StartUpdater demo_updater
       [TickC (demo_oracle "full") true; CtxDone; TickC (demo_oracle "full") true]
       (update demo_updater demo_oracle_broken demo_world).2.
Proof.
  destruct (StartUpdater_emits_per_tick_until_done demo_updater) as (_ & _ & Hfail & _).
  apply (Hfail _ _ _ _ (LibError OpCopy "connection reset by peer")).
  vm_compute. reflexivity.
Defined.

(** C5: the rename is refused. *)
Lemma RestartAndUpdate_rename_fails_witness :
  (RestartAndUpdate demo_updater demo_oracle_refused demo_world).1
  = Some (LibError OpRename "permission denied") ∧
  files (RestartAndUpdate demo_updater demo_oracle_refused demo_world).2 = demo_files ∧
  procs (RestartAndUpdate demo_updater demo_oracle_refused demo_world).2 = [] ∧
  alive (RestartAndUpdate demo_updater demo_oracle_refused demo_world).2 = true.
Proof.
  apply (RestartAndUpdate_rename_fails demo_updater demo_oracle_refused demo_world).
  vm_compute. reflexivity.
Defined.

(** C3: the download breaks after the temporary file was created; [update]
    returns the error and the temporary file is still there afterwards. *)
Theorem update_leaves_archive_when_download_breaks :
  files demo_world !! "/tmp/download" = None ∧
  (update demo_updater demo_oracle_broken demo_world).1.2
  = Some (LibError OpCopy "connection reset by peer") ∧
  files (update demo_updater demo_oracle_broken demo_world).2 !! "/tmp/download"
  = Some (String.list_byte_of_string "fu").
Proof. vm_compute. auto. Qed.

(** C6: the executable is in place and nothing fails for a reason of the
    environment's; the rename succeeds, the start of the new process fails
    because its path was just vacated, and [RestartAndUpdate] returns that
    error: no process was started, the current one goes on, and the
    executable is at its ".old" path only. *)
Theorem RestartAndUpdate_spawns_from_vacated_path :
  is_Some (files demo_world !! "/opt/app") ∧
  (RestartAndUpdate demo_updater (demo_oracle "full") demo_world).1
  = Some (LibError OpStartProcess "no such file or directory") ∧
  procs (RestartAndUpdate demo_updater (demo_oracle "full") demo_world).2 = [] ∧
  alive (RestartAndUpdate demo_updater (demo_oracle "full") demo_world).2 = true ∧
  files (RestartAndUpdate demo_updater (demo_oracle "full") demo_world).2 !! "/opt/app"
  = None ∧
  files (RestartAndUpdate demo_updater (demo_oracle "full") demo_world).2 !! "/opt/app.old"
  = files demo_world !! "/opt/app".
Proof. vm_compute. eauto 10. Qed.

(** C8: no handle is open before the call.  On an archive without the
    binary [unpack] returns the missing-entry error and the reader it opened
    for info.json is still open; on a complete archive with one more entry
    [unpack] succeeds and the reader of that entry is still open. *)
Theorem unpack_leaves_entry_readers_open :
  handles demo_world = ∅ ∧
  (unpack demo_updater "/tmp/no-binary" (demo_oracle "no binary") demo_world).1.2
  = Some missing_entry ∧
  handles (unpack demo_updater "/tmp/no-binary" (demo_oracle "no binary") demo_world).2
  = {[ 4 := ZipEntry "info.json" ]} ∧
  (unpack demo_updater "/tmp/extra" (demo_oracle "extra") demo_world).1.2 = None ∧
  handles (unpack demo_updater "/tmp/extra" (demo_oracle "extra") demo_world).2
  = {[ 4 := ZipEntry "README" ]}.
Proof. vm_compute. auto 10. Qed.

End Examples.

(** ** [fetch] *)

Section Fetch.
Context `{Platform}.

(** X1: when the request, the creation of the temporary file and the copy
    all succeed, [fetch] returns the name of the temporary file with no
    error, and that file holds exactly the body of the response; no other
    file is touched. *)
Theorem fetch_downloads_body u o w body tmp :
  http_Get_result o = inr body →
  TempFile_result o = inr tmp →
  fetch_Copy_fault o = None →
  (fetch u o w).1 = (tmp, None) ∧
  files (fetch u o w).2 = <[tmp := body]> (files w).
Proof.
  intros Hget Htmp Hcopy.
  unfold fetch, http_Get, ioutil_TempFile, io_Copy. run.
  rewrite Hget. run. rewrite Htmp. run. rewrite Hcopy. run.
  split; [done |]. apply staged_write.
Qed.

(** X2: when the request fails, or the temporary file cannot be created,
    [fetch] returns the empty path with that error and the filesystem is
    as before; a failed request is made once and nothing else is called. *)
Theorem fetch_fails_before_download u o w :
  (∀ d, http_Get_result o = inl d →
     (fetch u o w).1 = ("", Some (LibError OpHttpGet d)) ∧
     files (fetch u o w).2 = files w ∧
     log (fetch u o w).2 = log w ++ [Call OpHttpGet (upstream u)]) ∧
  (∀ body d, http_Get_result o = inr body → TempFile_result o = inl d →
     (fetch u o w).1 = ("", Some (LibError OpTempFile d)) ∧
     files (fetch u o w).2 = files w).
Proof.
  split.
  - intros d Hget. unfold fetch, http_Get. run. rewrite Hget. by run.
  - intros body d Hget Htmp.
    unfold fetch, http_Get, ioutil_TempFile. run.
    rewrite Hget. run. rewrite Htmp. by run.
Qed.

(** X3: [fetch] closes what it opens on every path: when the descriptors
    it is handed out are free, the table of open handles after the call is
    the table before it, whether the request, the temporary file or the
    copy failed or not. *)
Theorem fetch_releases_handles u o w :
  fds_fresh w →
  handles (fetch u o w).2 = handles w.
Proof.
  intros Hfresh.
  assert (Hn : handles w !! next_fd w = None) by (apply Hfresh; lia).
  assert (HSn : handles w !! S (next_fd w) = None) by (apply Hfresh; lia).
  unfold fetch, http_Get, ioutil_TempFile, io_Copy. run.
  destruct (http_Get_result o) as [d | body]; run; [done |].
  destruct (TempFile_result o) as [d | tmp]; run.
  - by apply delete_insert_id.
  - rewrite delete_insert_id; [by apply delete_insert_id |].
    rewrite lookup_insert_ne by lia. done.
Qed.

End Fetch.

(** ** [update] against its summary *)

Section Update.
Context `{Platform}.

Lemma fetch_correct u o w :
  (fetch u o w).1 = (fetch_summary o (files w)).1 ∧
  files (fetch u o w).2 = (fetch_summary o (files w)).2 ∧
  procs (fetch u o w).2 = procs w ∧
  alive (fetch u o w).2 = alive w.
Proof.
  unfold fetch, fetch_summary, http_Get, ioutil_TempFile, io_Copy. run.
  destruct (http_Get_result o) as [d | body]; run; [done |].
  destruct (TempFile_result o) as [d | tmp]; run; [done |].
  destruct (fetch_Copy_fault o) as [[n d]|]; run; by rewrite staged_write.
Qed.

Lemma update_correct u o w :
  (update u o w).1 = (update_summary u o (files w)).1 ∧
  files (update u o w).2 = (update_summary u o (files w)).2 ∧
  procs (update u o w).2 = procs w ∧
  alive (update u o w).2 = alive w.
Proof.
  destruct (fetch_correct u o w) as (Hr & Hfs & Hps & Hal).
  unfold update, update_summary. run.
  destruct (fetch u o w) as [[p err] w1]. simpl in *.
  destruct (fetch_summary o (files w)) as [[p' err'] fs1]. simpl in *.
  injection Hr as -> ->. subst fs1.
  destruct err' as [e|]; run; [done |].
  destruct (unpack_correct u p' o w1) as (Hr' & Hfs' & Hps' & Hal').
  destruct (unpack u p' o w1) as [r w2]. simpl in *.
  destruct (unpack_summary u o (files w1 !! p') (files w1)) as [r' fs2].
  simpl in *. run. subst. split_and!; congruence.
Qed.

Lemma unpack_summary_files u o archive (fs : gmap string bytes) :
  (unpack_summary u o archive fs).2 = fs ∨
  ((unpack_summary u o archive fs).1.2 = None ∨
   (∃ d, (unpack_summary u o archive fs).1.2 = Some (LibError OpCopy d) ∧
         is_Some (unpack_Copy_fault o))) ∧
  ∃ data, (unpack_summary u o archive fs).2 = <[staged u := data]> fs.
Proof.
  unfold unpack_summary.
  destruct archive as [b|]; [| by left].
  destruct (zip_parse b) as [d | entries]; [by left |].
  destruct (first_fault entries); [by left |].
  destruct (last_named "info.json" entries) as [fi|]; [| by left].
  destruct (binary_named (execPath u) entries) as [fb|]; [| by left].
  destruct (json_Decode (zf_Data fi)) as [info [d|]]; [by left |].
  destruct (Create_fault o); [by left |].
  destruct (unpack_Copy_fault o) as [[n d]|]; right; simpl; eauto 10.
Qed.

End Update.

(** ** More on [unpack] *)

Section UnpackMore.
Context `{Platform}.

Lemma last_named_split name l1 f l2 :
  zf_Name f = name →
  (∀ g, g ∈ l2 → zf_Name g ≠ name) →
  last_named name (l1 ++ f :: l2) = Some f.
Proof.
  intros Hf Hl2. apply last_named_None in Hl2.
  induction l1 as [|g l1 IH]; simpl.
  - rewrite Hl2. by rewrite decide_True.
  - by rewrite IH.
Qed.

Lemma first_fault_elem fs f d :
  f ∈ fs → zf_OpenFault f = Some d → is_Some (first_fault fs).
Proof.
  intros Hf Hd. destruct (first_fault fs) eqn:E; [eauto |].
  apply first_fault_openable in E. unfold openable in E.
  rewrite Forall_forall in E. specialize (E f Hf). congruence.
Qed.

Lemma unpack_range_handles ep fs : ∀ i b w r w',
  unpack_range ep fs i b w = (r, w') →
  ∀ fd x, handles w' !! fd = Some x →
    handles w !! fd = Some x ∨ ∃ name, x = ZipEntry name.
Proof.
  induction fs as [|f fs IH]; intros i b w r w'; simpl.
  - intros [= <- <-]. auto.
  - unfold zip_File_Open. run. destruct (zf_OpenFault f); run.
    + intros [= <- <-]. auto.
    + repeat case_decide; intros Hr fd x Hx;
        (destruct (IH _ _ _ _ _ Hr fd x Hx) as [Hin | ?]; [| by right]);
        run; apply lookup_insert_Some in Hin as [[_ <-] | [_ Hin]]; eauto.
Qed.

(** X4: [unpack] writes to one path only.  Whatever the archive holds and
    whatever fails, a file at a path other than [execPath + ".new"] is after
    the call what it was before, no process is started and the current
    process goes on. *)
Theorem unpack_touches_only_staged u path o w p :
  p ≠ execPath u +:+ ".new" →
  files (unpack u path o w).2 !! p = files w !! p ∧
  procs (unpack u path o w).2 = procs w ∧
  alive (unpack u path o w).2 = alive w.
Proof.
  intros Hp. destruct (unpack_correct u path o w) as (_ & Hfs & Hps & Hal).
  split_and!; [| done | done]. rewrite Hfs.
  destruct (unpack_summary_files u o (files w !! path) (files w))
    as [-> | (_ & data & ->)]; [done |].
  by rewrite lookup_insert_ne.
Qed.

(** X5: when the copy of the binary into the staged file fails after [n]
    bytes, [unpack] returns the decoded metadata together with the error of
    the copy, and the staged file is left behind holding the first [n]
    bytes of the binary entry. *)
Theorem unpack_copy_fails_leaves_partial u path o w b entries fi fb info n d :
  files w !! path = Some b →
  zip_parse b = inr entries →
  openable entries →
  execPath u ≠ "info.json" →
  last_named "info.json" entries = Some fi →
  last_named (execPath u) entries = Some fb →
  json_Decode (zf_Data fi) = (info, None) →
  Create_fault o = None →
  unpack_Copy_fault o = Some (n, d) →
  (unpack u path o w).1 = (info, Some (LibError OpCopy d)) ∧
  files (unpack u path o w).2
  = <[execPath u +:+ ".new" := take n (zf_Data fb)]> (files w).
Proof.
  intros Hb Hz Hopen Hne Hfi Hfb Hj Hc Hcp.
  destruct (unpack_correct u path o w) as (Hr & Hfs & _).
  rewrite Hr, Hfs. unfold unpack_summary.
  apply first_fault_openable in Hopen.
  by rewrite Hb, Hz, Hopen, Hfi, binary_named_last, Hfb, Hj, Hc, Hcp.
Qed.

(** X6: when the staged file cannot be created, [unpack] returns the
    decoded metadata together with the error of [os.Create] and the
    filesystem is as before: a staged file of an earlier call is neither
    removed nor changed. *)
Theorem unpack_create_fails u path o w b entries fi fb info d :
  files w !! path = Some b →
  zip_parse b = inr entries →
  openable entries →
  execPath u ≠ "info.json" →
  last_named "info.json" entries = Some fi →
  last_named (execPath u) entries = Some fb →
  json_Decode (zf_Data fi) = (info, None) →
  Create_fault o = Some d →
  (unpack u path o w).1 = (info, Some (LibError OpCreate d)) ∧
  files (unpack u path o w).2 = files w.
Proof.
  intros Hb Hz Hopen Hne Hfi Hfb Hj Hc.
  destruct (unpack_correct u path o w) as (Hr & Hfs & _).
  rewrite Hr, Hfs. unfold unpack_summary.
  apply first_fault_openable in Hopen.
  by rewrite Hb, Hz, Hopen, Hfi, binary_named_last, Hfb, Hj, Hc.
Qed.

(** X7: one entry that does not open makes the whole call fail, be it an
    entry [unpack] has no use for and with both required entries in place:
    [unpack] returns the zero metadata with the error of [File.Open] and
    the filesystem is as before. *)
Theorem unpack_unreadable_entry_aborts u path o w b entries f d :
  files w !! path = Some b →
  zip_parse b = inr entries →
  f ∈ entries →
  zf_OpenFault f = Some d →
  (∃ d', (unpack u path o w).1 = (Info_zero, Some (LibError OpEntryOpen d'))) ∧
  files (unpack u path o w).2 = files w.
Proof.
  intros Hb Hz Hf Hd.
  destruct (unpack_correct u path o w) as (Hr & Hfs & _).
  rewrite Hr, Hfs. unfold unpack_summary. rewrite Hb, Hz.
  destruct (first_fault_elem entries f d Hf Hd) as [d' ->]. eauto.
Qed.

(** X8: when several entries of the archive carry the name of the
    metadata or of the binary, the last of them is the one used: [unpack]
    returns what the last entry named "info.json" decodes to and stages the
    content of the last entry named [execPath]. *)
Theorem unpack_last_duplicate_wins u path o w b entries i1 fi i2 b1 fb b2 info :
  files w !! path = Some b →
  zip_parse b = inr entries →
  openable entries →
  execPath u ≠ "info.json" →
  entries = i1 ++ fi :: i2 →
  zf_Name fi = "info.json" →
  (∀ g, g ∈ i2 → zf_Name g ≠ "info.json") →
  entries = b1 ++ fb :: b2 →
  zf_Name fb = execPath u →
  (∀ g, g ∈ b2 → zf_Name g ≠ execPath u) →
  json_Decode (zf_Data fi) = (info, None) →
  Create_fault o = None →
  unpack_Copy_fault o = None →
  (unpack u path o w).1 = (info, None) ∧
  files (unpack u path o w).2 !! (execPath u +:+ ".new") = Some (zf_Data fb).
Proof.
  intros Hb Hz Hopen Hne Hi Hfi Hi2 Hbs Hfb Hb2 Hj Hc Hcp.
  assert (Hlast_i : last_named "info.json" entries = Some fi)
    by (rewrite Hi; by apply last_named_split).
  assert (Hlast_b : last_named (execPath u) entries = Some fb)
    by (rewrite Hbs; by apply last_named_split).
  destruct (unpack_correct u path o w) as (Hr & Hfs & _).
  rewrite Hr, Hfs. unfold unpack_summary.
  apply first_fault_openable in Hopen.
  rewrite Hb, Hz, Hopen, Hlast_i, binary_named_last, Hlast_b, Hj, Hc, Hcp by done.
  simpl. split; [done |]. apply lookup_insert_eq.
Qed.

(** X9: the only handles [unpack] can leave open are readers of archive
    entries.  On every path out of the call the archive itself and the
    staged file are closed: a handle open afterwards was open before, or is
    the reader of an entry. *)
Theorem unpack_leaves_only_entry_readers u path o w fd x :
  handles (unpack u path o w).2 !! fd = Some x →
  handles w !! fd = Some x ∨ ∃ name, x = ZipEntry name.
Proof.
  unfold unpack, zip_OpenReader. run.
  destruct (files w !! path) as [b|]; run; [| auto].
  destruct (zip_parse b) as [d | entries]; run; [auto |].
  match goal with |- context [unpack_range ?a ?b ?c ?d ?w1] =>
    destruct (unpack_range a b c d w1) as [r w2] eqn:Hr end.
  pose proof (unpack_range_handles _ _ _ _ _ _ _ Hr fd x) as Hrange. run.
  assert (Hback : fd ≠ next_fd w → handles w2 !! fd = Some x →
                  handles w !! fd = Some x ∨ ∃ name, x = ZipEntry name).
  { intros Hne Hx. destruct (Hrange Hx) as [Hin | ?]; [| by right].
    left. by rewrite lookup_insert_ne in Hin. }
  clear Hrange Hr.
  destruct r as [e | [[infoFile|] [binaryFile|]]]; run;
    try (intros [? ?]%lookup_delete_Some; by apply Hback).
  unfold json_NewDecoder_Decode. run.
  destruct (json_Decode (rc_data infoFile)) as [info [d|]]; run.
  { intros [? [_ [_ ?]%lookup_delete_Some]%lookup_delete_Some]%lookup_delete_Some.
    by apply Hback. }
  unfold os_Create. run.
  destruct (Create_fault o); run.
  { intros [? [_ [_ ?]%lookup_delete_Some]%lookup_delete_Some]%lookup_delete_Some.
    by apply Hback. }
  unfold io_Copy. run.
  intros Hx. apply lookup_delete_Some in Hx as [? Hx].
  do 3 apply lookup_delete_Some in Hx as [? Hx].
  rewrite lookup_insert_ne in Hx by done. by apply Hback.
Qed.

End UnpackMore.

Section UnpackHandles.
Context `{Platform}.

(** X10: on an archive of exactly the two entries [unpack] looks for, in
    either order, every handle the call opens is closed again when it
    returns, whether the decode, the creation of the staged file or the
    copy fail or not: the table of open handles is the one before the
    call. *)
Theorem unpack_two_entries_releases_all u path o w b e1 e2 :
  fds_fresh w →
  files w !! path = Some b →
  zip_parse b = inr [e1; e2] →
  zf_OpenFault e1 = None →
  zf_OpenFault e2 = None →
  execPath u ≠ "info.json" →
  (zf_Name e1 = "info.json" ∧ zf_Name e2 = execPath u) ∨
  (zf_Name e1 = execPath u ∧ zf_Name e2 = "info.json") →
  handles (unpack u path o w).2 = handles w.
Proof.
  intros Hfresh Hb Hz H1 H2 Hne Hnames.
  assert (Hfree : ∀ k, handles w !! (k + next_fd w) = None)
    by (intros k; apply Hfresh; lia).
  pose proof (Hfree 0) as F0. pose proof (Hfree 1) as F1.
  pose proof (Hfree 2) as F2. pose proof (Hfree 3) as F3. simpl in F0, F1, F2, F3.
  unfold unpack, zip_OpenReader. run. rewrite Hb. run. rewrite Hz. run.
  cbn [unpack_range]. unfold zip_File_Open. run. rewrite H1. run.
  assert (Hclosed : ∀ m' : gmap nat Resource,
    (∀ k, m' !! k = if decide (k = next_fd w ∨ k = S (next_fd w) ∨
                                k = S (S (next_fd w)) ∨ k = S (S (S (next_fd w))))
                    then None else handles w !! k) →
    m' = handles w).
  { intros m' Hm. apply map_eq. intros k. rewrite Hm.
    case_decide as Hk; [| done].
    destruct Hk as [-> | [-> | [-> | ->]]]; done. }
  destruct Hnames as [[N1 N2] | [N1 N2]].
  - rewrite decide_True by done. run. rewrite H2. run.
    rewrite decide_False by congruence. rewrite decide_True by done. run.
    unfold json_NewDecoder_Decode. run. cbn [rc_data rc_fd].
    destruct (json_Decode (zf_Data e1)) as [info [d|]]; run.
    { apply Hclosed. lookup_cases. }
    unfold os_Create. run.
    destruct (Create_fault o); run.
    { apply Hclosed. lookup_cases. }
    unfold io_Copy. run.
    apply Hclosed. lookup_cases.
  - rewrite decide_False by congruence. rewrite decide_True by done. run.
    rewrite H2. run. rewrite decide_True by done. run.
    unfold json_NewDecoder_Decode. run. cbn [rc_data rc_fd].
    destruct (json_Decode (zf_Data e2)) as [info [d|]]; run.
    { apply Hclosed. lookup_cases. }
    unfold os_Create. run.
    destruct (Create_fault o); run.
    { apply Hclosed. lookup_cases. }
    unfold io_Copy. run.
    apply Hclosed. lookup_cases.
Qed.

End UnpackHandles.

(** ** More on a cycle, the polling loop and the restart *)

Section CycleMore.
Context `{Platform}.

Lemma append_new_ne (s : string) : s ≠ s +:+ ".new".
Proof.
  induction s as [|a s IH]; [done |].
  intros Heq. apply IH. unfold String.app in Heq. fold String.app in Heq.
  by injection Heq.
Qed.

Lemma update_frame u o w p :
  p ≠ staged u →
  tmp_of o ≠ Some p →
  files (update u o w).2 !! p = files w !! p.
Proof.
  intros Hp Htmp. destruct (update_correct u o w) as (_ & -> & _).
  unfold update_summary, fetch_summary, tmp_of in *.
  destruct (http_Get_result o) as [d | body]; [done |].
  destruct (TempFile_result o) as [d | tmp]; [done |].
  assert (tmp ≠ p) by congruence.
  destruct (fetch_Copy_fault o) as [[n d]|]; simpl; [by rewrite lookup_insert_ne |].
  match goal with |- context [unpack_summary ?a ?b ?c ?d] =>
    pose proof (unpack_summary_files a b c d) as Hs;
    destruct (unpack_summary a b c d) as [r fs2] end.
  simpl in *. rewrite lookup_delete_ne by done.
  destruct Hs as [-> | (_ & data & ->)].
  - by rewrite lookup_insert_ne.
  - by rewrite !lookup_insert_ne.
Qed.

(** X11: a cycle that runs to a successful end leaves exactly one trace.
    When the download succeeds into a fresh temporary file, the body is an
    archive with both entries, every entry opens, the metadata decodes and
    the staged file is created and written, [update] returns the decoded
    metadata with no error; the filesystem afterwards is the one before
    with the binary entry's bytes at [execPath + ".new"], and the
    temporary file is gone. *)
Theorem update_stages_and_cleans_up u o w body tmp entries fi fb info :
  http_Get_result o = inr body →
  TempFile_result o = inr tmp →
  fetch_Copy_fault o = None →
  files w !! tmp = None →
  tmp ≠ execPath u +:+ ".new" →
  zip_parse body = inr entries →
  openable entries →
  execPath u ≠ "info.json" →
  last_named "info.json" entries = Some fi →
  last_named (execPath u) entries = Some fb →
  json_Decode (zf_Data fi) = (info, None) →
  Create_fault o = None →
  unpack_Copy_fault o = None →
  (update u o w).1 = (info, None) ∧
  files (update u o w).2 = <[execPath u +:+ ".new" := zf_Data fb]> (files w).
Proof.
  intros Hget Htmp Hcopy Hfresh Hne Hz Hopen Hep Hfi Hfb Hj Hc Hcp.
  destruct (update_correct u o w) as (-> & -> & _).
  unfold update_summary, fetch_summary, unpack_summary.
  apply first_fault_openable in Hopen.
  rewrite Hget, Htmp, Hcopy, lookup_insert_eq, Hz, Hopen, Hfi,
    binary_named_last, Hfb, Hj, Hc, Hcp by done.
  simpl. split; [done |]. unfold staged.
  rewrite delete_insert_ne by done. by rewrite delete_insert_id.
Qed.

(** X12: a cycle that fails leaves no trace, unless a copy broke.  When
    neither the download nor the copy of the binary breaks off and the
    temporary file is a fresh one, every call of [update] that returns an
    error leaves the filesystem exactly as it was: the temporary file is
    removed and nothing is staged. *)
Theorem update_failure_leaves_no_trace u o w e :
  fetch_Copy_fault o = None →
  unpack_Copy_fault o = None →
  (∀ tmp, TempFile_result o = inr tmp → files w !! tmp = None) →
  (update u o w).1.2 = Some e →
  files (update u o w).2 = files w.
Proof.
  intros Hcopy Hcp Hfresh.
  destruct (update_correct u o w) as (-> & -> & _).
  unfold update_summary, fetch_summary.
  destruct (http_Get_result o) as [d | body]; [done |].
  destruct (TempFile_result o) as [d | tmp]; [done |].
  rewrite Hcopy. specialize (Hfresh tmp eq_refl).
  match goal with |- context [unpack_summary ?a ?b ?c ?d] =>
    pose proof (unpack_summary_files a b c d) as Hs;
    destruct (unpack_summary a b c d) as [r fs2] end.
  simpl in *. intros He.
  destruct Hs as [-> | ([Hok | (d & _ & Hsome)] & _)].
  - by apply delete_insert_id.
  - congruence.
  - rewrite Hcp in Hsome. by destruct Hsome.
Qed.

(** X13: a cycle writes to two paths only, its temporary file and
    [execPath + ".new"].  Whatever the server answers and whatever fails, a
    file at any other path is after [update] what it was before, no process
    is started and the current process goes on. *)
Theorem update_touches_only_tmp_and_staged u o w p :
  p ≠ execPath u +:+ ".new" →
  tmp_of o ≠ Some p →
  files (update u o w).2 !! p = files w !! p ∧
  procs (update u o w).2 = procs w ∧
  alive (update u o w).2 = alive w.
Proof.
  intros Hp Htmp. destruct (update_correct u o w) as (_ & _ & Hps & Hal).
  split_and!; [by apply update_frame | done | done].
Qed.

(** X14: polling never installs anything.  Against every schedule, as long
    as no temporary file is created at the path of the executable itself,
    the executable is after the loop the file it was before, no process was
    started and the current process goes on: a staged binary is never moved
    onto the executable by the loop. *)
Theorem StartUpdater_keeps_executable u sched : ∀ w,
  Forall (λ o, tmp_of o ≠ Some (execPath u)) (tick_oracles sched) →
  files (StartUpdater u sched w).2 !! execPath u = files w !! execPath u ∧
  procs (StartUpdater u sched w).2 = procs w ∧
  alive (StartUpdater u sched w).2 = alive w.
Proof.
  induction sched as [|[o received|] sched IH]; intros w Htmp; [done | | done].
  simpl in Htmp. apply Forall_cons in Htmp as [Ho Htmp].
  rewrite StartUpdater_tick.
  destruct (update_correct u o w) as (_ & _ & Hps & Hal).
  pose proof (update_frame u o w (execPath u) (append_new_ne _) Ho) as Hfs.
  destruct (IH (update u o w).2 Htmp) as (IHfs & IHps & IHal).
  destruct ((update u o w).1.2).
  - split_and!; congruence.
  - destruct received; simpl; [split_and!; congruence | done].
Qed.

(** X15: only cancellation ends the loop.  Whatever the cycles do, failed
    or not, the goroutine has left the loop at the end of a schedule only
    if the schedule holds the case of [ctx.Done()]. *)
Theorem StartUpdater_exits_only_on_done u sched : ∀ w,
  (StartUpdater u sched w).1.2 = Exited → CtxDone ∈ sched.
Proof.
  induction sched as [|[o received|] sched IH]; intros w; [done | | left].
  rewrite StartUpdater_tick.
  destruct ((update u o w).1.2).
  - intros Hx. right. by eapply IH.
  - destruct received; simpl; [| done]. intros Hx. right. by eapply IH.
Qed.


End CycleMore.

Section EntryOrder.
Context `{Platform}.

Lemma last_named_unique name fs f :
  NoDup (zf_Name <$> fs) →
  f ∈ fs → zf_Name f = name →
  last_named name fs = Some f.
Proof.
  induction fs as [|g fs IH]; simpl; [by intros _ ?%elem_of_nil |].
  intros [Hg Hnd]%NoDup_cons [-> | Hf]%elem_of_cons Hname.
  - destruct (last_named name fs) as [h|] eqn:E.
    + destruct Hg. apply list_elem_of_fmap. exists h.
      split; [| by eapply last_named_elem].
      apply last_named_name in E. congruence.
    + by rewrite decide_True.
  - by rewrite (IH Hnd Hf Hname).
Qed.

Lemma last_named_perm name fs fs' :
  NoDup (zf_Name <$> fs) →
  fs ≡ₚ fs' →
  last_named name fs = last_named name fs'.
Proof.
  intros Hnd Hperm.
  assert (Hnd' : NoDup (zf_Name <$> fs')) by (by rewrite <- Hperm).
  destruct (last_named name fs) as [f|] eqn:E.
  - symmetry. apply last_named_unique; [done | |].
    + rewrite <- Hperm. by eapply last_named_elem.
    + by eapply last_named_name.
  - symmetry. apply last_named_None. intros g Hg.
    rewrite <- Hperm in Hg. revert g Hg. by apply last_named_None.
Qed.

(** X17: when the entries of an archive have names all different and all
    open, their order in the archive is of no account: on two archives
    holding the same entries in different orders [unpack] returns the same
    metadata and error and leaves the same filesystem. *)
Theorem unpack_entry_order_irrelevant u o w path path' b b' entries entries' :
  files w !! path = Some b →
  files w !! path' = Some b' →
  zip_parse b = inr entries →
  zip_parse b' = inr entries' →
  entries ≡ₚ entries' →
  NoDup (zf_Name <$> entries) →
  openable entries →
  (unpack u path o w).1 = (unpack u path' o w).1 ∧
  files (unpack u path o w).2 = files (unpack u path' o w).2.
Proof.
  intros Hb Hb' Hz Hz' Hperm Hnd Hopen.
  assert (Hopen' : openable entries') by (unfold openable; by rewrite <- Hperm).
  destruct (unpack_correct u path o w) as (-> & -> & _).
  destruct (unpack_correct u path' o w) as (-> & -> & _).
  unfold unpack_summary, binary_named.
  apply first_fault_openable in Hopen, Hopen'.
  rewrite Hb, Hb', Hz, Hz', Hopen, Hopen'.
  by rewrite !(last_named_perm _ entries entries' Hnd Hperm).
Qed.

End EntryOrder.

(** ** The further properties on the example host *)

Section MoreExamples.
Local Existing Instance demo_platform_more.

Lemma fetch_downloads_body_witness :
  (fetch demo_updater (demo_oracle "full") demo_world).1 = ("/tmp/download", None) ∧
  files (fetch demo_updater (demo_oracle "full") demo_world).2
  = <["/tmp/download" := String.list_byte_of_string "full"]> demo_files.
Proof.
  apply (fetch_downloads_body demo_updater (demo_oracle "full") demo_world);
    reflexivity.
Defined.

Lemma fetch_fails_before_download_witness :
  (fetch demo_updater demo_oracle_unreachable demo_world).1
  = ("", Some (LibError OpHttpGet "connection refused")) ∧
  files (fetch demo_updater demo_oracle_unreachable demo_world).2 = demo_files ∧
  log (fetch demo_updater demo_oracle_unreachable demo_world).2
  = [Call OpHttpGet "http://upstream/app.zip"].
Proof.
  destruct (fetch_fails_before_download demo_updater demo_oracle_unreachable demo_world)
    as (Hget & _).
  apply Hget. reflexivity.
Defined.

Lemma demo_world_fresh : fds_fresh demo_world.
Proof. intros fd _. apply lookup_empty. Qed.

Lemma fetch_releases_handles_witness :
  handles (fetch demo_updater demo_oracle_broken demo_world).2 = ∅.
Proof.
  apply (fetch_releases_handles demo_updater demo_oracle_broken demo_world).
  apply demo_world_fresh.
Defined.

Lemma unpack_touches_only_staged_witness :
  files (unpack demo_updater "/tmp/full" (demo_oracle "full") demo_world_more).2
    !! "/opt/app" = demo_files_more !! "/opt/app" ∧
  procs (unpack demo_updater "/tmp/full" (demo_oracle "full") demo_world_more).2 = [] ∧
  alive (unpack demo_updater "/tmp/full" (demo_oracle "full") demo_world_more).2 = true.
Proof.
  apply (unpack_touches_only_staged demo_updater "/tmp/full" (demo_oracle "full")
           demo_world_more "/opt/app").
  discriminate.
Defined.

Lemma unpack_copy_fails_leaves_partial_witness :
  (unpack demo_updater "/tmp/full" demo_oracle_disk_full demo_world_more).1
  = (demo_svc, Some (LibError OpCopy "no space left on device")) ∧
  files (unpack demo_updater "/tmp/full" demo_oracle_disk_full demo_world_more).2
  = <["/opt/app.new" := String.list_byte_of_string "ELF"]> demo_files_more.
Proof.
  apply (unpack_copy_fails_leaves_partial demo_updater "/tmp/full"
           demo_oracle_disk_full demo_world_more (String.list_byte_of_string "full")
           [demo_info_entry; demo_binary_entry] demo_info_entry demo_binary_entry
           demo_svc 3 "no space left on device");
    first [ vm_compute; reflexivity | discriminate | repeat constructor ].
Defined.

Lemma unpack_create_fails_witness :
  (unpack demo_updater "/tmp/full" demo_oracle_no_create demo_world_more).1
  = (demo_svc, Some (LibError OpCreate "permission denied")) ∧
  files (unpack demo_updater "/tmp/full" demo_oracle_no_create demo_world_more).2
  = demo_files_more.
Proof.
  apply (unpack_create_fails demo_updater "/tmp/full" demo_oracle_no_create
           demo_world_more (String.list_byte_of_string "full")
           [demo_info_entry; demo_binary_entry] demo_info_entry demo_binary_entry
           demo_svc "permission denied");
    first [ vm_compute; reflexivity | discriminate | repeat constructor ].
Defined.

Lemma unpack_unreadable_entry_aborts_witness :
  (∃ d, (unpack demo_updater "/tmp/corrupt" (demo_oracle "corrupt") demo_world_more).1
        = (Info_zero, Some (LibError OpEntryOpen d))) ∧
  files (unpack demo_updater "/tmp/corrupt" (demo_oracle "corrupt") demo_world_more).2
  = demo_files_more.
Proof.
  apply (unpack_unreadable_entry_aborts demo_updater "/tmp/corrupt"
           (demo_oracle "corrupt") demo_world_more
           (String.list_byte_of_string "corrupt")
           [demo_info_entry; demo_binary_entry; demo_corrupt_entry]
           demo_corrupt_entry "zip: unsupported compression algorithm");
    [ vm_compute; reflexivity | vm_compute; reflexivity | | reflexivity ].
  rewrite !elem_of_cons. auto.
Defined.

Lemma unpack_last_duplicate_wins_witness :
  (unpack demo_updater "/tmp/twice" (demo_oracle "twice") demo_world_more).1
  = (demo_svc, None) ∧
  files (unpack demo_updater "/tmp/twice" (demo_oracle "twice") demo_world_more).2
    !! "/opt/app.new" = Some demo_binary.
Proof.
  apply (unpack_last_duplicate_wins demo_updater "/tmp/twice" (demo_oracle "twice")
           demo_world_more (String.list_byte_of_string "twice")
           [demo_bad_entry; demo_stale_entry; demo_info_entry; demo_binary_entry]
           [demo_bad_entry; demo_stale_entry] demo_info_entry [demo_binary_entry]
           [demo_bad_entry; demo_stale_entry; demo_info_entry] demo_binary_entry []
           demo_svc);
    try first [ vm_compute; reflexivity | discriminate | repeat constructor ].
  - intros g [-> | Hg%elem_of_nil]%elem_of_cons; [discriminate | done].
  - intros g Hg%elem_of_nil. done.
Defined.

Lemma unpack_leaves_only_entry_readers_witness :
  handles demo_world !! 4 = Some (ZipEntry "README") ∨
  ∃ name, ZipEntry "README" = ZipEntry name.
Proof.
  apply (unpack_leaves_only_entry_readers demo_updater "/tmp/extra"
           (demo_oracle "extra") demo_world 4 (ZipEntry "README")).
  vm_compute. reflexivity.
Defined.

Lemma unpack_two_entries_releases_all_witness :
  handles (unpack demo_updater "/tmp/swapped" demo_oracle_disk_full demo_world_more).2
  = ∅.
Proof.
  apply (unpack_two_entries_releases_all demo_updater "/tmp/swapped"
           demo_oracle_disk_full demo_world_more
           (String.list_byte_of_string "swapped") demo_binary_entry demo_info_entry);
    try first [ vm_compute; reflexivity | discriminate ].
  right. split; reflexivity.
Defined.

Lemma update_stages_and_cleans_up_witness :
  (update demo_updater (demo_oracle "full") demo_world).1 = (demo_svc, None) ∧
  files (update demo_updater (demo_oracle "full") demo_world).2
  = <["/opt/app.new" := demo_binary]> demo_files.
Proof.
  apply (update_stages_and_cleans_up demo_updater (demo_oracle "full") demo_world
           (String.list_byte_of_string "full") "/tmp/download"
           [demo_info_entry; demo_binary_entry] demo_info_entry demo_binary_entry
           demo_svc);
    first [ vm_compute; reflexivity | discriminate | repeat constructor ].
Defined.

Lemma update_failure_leaves_no_trace_witness :
  files (update demo_updater (demo_oracle "bad json") demo_world).2 = demo_files.
Proof.
  apply (update_failure_leaves_no_trace demo_updater (demo_oracle "bad json")
           demo_world (LibError OpDecode "invalid character"));
    try (vm_compute; reflexivity).
  intros tmp [= <-]. vm_compute. reflexivity.
Defined.

Lemma update_touches_only_tmp_and_staged_witness :
  files (update demo_updater demo_oracle_broken demo_world).2 !! "/opt/app"
  = demo_files !! "/opt/app" ∧
  procs (update demo_updater demo_oracle_broken demo_world).2 = [] ∧
  alive (update demo_updater demo_oracle_broken demo_world).2 = true.
Proof.
  apply (update_touches_only_tmp_and_staged demo_updater demo_oracle_broken
           demo_world "/opt/app"); discriminate.
Defined.

Lemma StartUpdater_keeps_executable_witness :
  let sched := [TickC (demo_oracle "full") true; TickC demo_oracle_broken true;
                CtxDone] in
  files (StartUpdater demo_updater sched demo_world).2 !! "/opt/app"
  = demo_files !! "/opt/app" ∧
  procs (StartUpdater demo_updater sched demo_world).2 = [] ∧
  alive (StartUpdater demo_updater sched demo_world).2 = true.
Proof.
  intros sched.
  apply (StartUpdater_keeps_executable demo_updater sched demo_world).
  repeat constructor; discriminate.
Defined.

Lemma StartUpdater_exits_only_on_done_witness :
  CtxDone ∈ [TickC demo_oracle_broken true; CtxDone; TickC (demo_oracle "full") true].
Proof.
  apply (StartUpdater_exits_only_on_done demo_updater
           [TickC demo_oracle_broken true; CtxDone; TickC (demo_oracle "full") true]
           demo_world).
  vm_compute. reflexivity.
Defined.


Lemma update_removes_archive_witness :
  files (update demo_updater (demo_oracle "no info") demo_world).2 !! "/tmp/download"
  = None.
Proof.
  apply (update_removes_archive demo_updater (demo_oracle "no info") demo_world
           "/tmp/download").
  vm_compute. reflexivity.
Defined.

Lemma unpack_entry_order_irrelevant_witness :
  (unpack demo_updater "/tmp/full" (demo_oracle "full") demo_world_more).1
  = (unpack demo_updater "/tmp/swapped" (demo_oracle "full") demo_world_more).1 ∧
  files (unpack demo_updater "/tmp/full" (demo_oracle "full") demo_world_more).2
  = files (unpack demo_updater "/tmp/swapped" (demo_oracle "full") demo_world_more).2.
Proof.
  apply (unpack_entry_order_irrelevant demo_updater (demo_oracle "full")
           demo_world_more "/tmp/full" "/tmp/swapped"
           (String.list_byte_of_string "full") (String.list_byte_of_string "swapped")
           [demo_info_entry; demo_binary_entry] [demo_binary_entry; demo_info_entry]);
    try (vm_compute; reflexivity).
  - apply Permutation_swap.
  - simpl. repeat constructor; rewrite ?elem_of_cons; [| by intros ?%elem_of_nil].
    intros [Hx | Hx%elem_of_nil]; [discriminate | done].
  - repeat constructor.
Defined.

End MoreExamples.
